(** * duplicate_parser: a shallow embedding of [DuplicateFinder]

    Source: [src/duplicate_finder.py].  Python [str] values are modelled by
    Rocq's [string]; each 8-bit [ascii] character is read as the code point
    U+0000..U+00FF (Latin-1), a range that Python's [str.lower] maps into
    itself.  The character classes [\w] and [\s] of Python's [re] module and
    [str.split]/[str.strip] are written out for that range. *)

From Stdlib Require Import Ascii String List Bool Arith Lia Permutation.
Import ListNotations.
Open Scope string_scope.
Open Scope bool_scope.
Open Scope nat_scope.

(** ** Character classes (Python 3, code points 0..255) *)

(** [str.isspace] / [\s]: 9..13, 28..31, space, U+0085, U+00A0. *)
Definition is_space (c : ascii) : bool :=
  let n := nat_of_ascii c in
  ((9 <=? n) && (n <=? 13)) || ((28 <=? n) && (n <=? 32))
  || (n =? 133) || (n =? 160).

(** [\w]: [str.isalnum] or underscore.  In Latin-1 the alphanumerics are
    ASCII letters and digits, ª ² ³ µ ¹ º ¼ ½ ¾, and À..ÿ except × and ÷. *)
Definition is_word (c : ascii) : bool :=
  let n := nat_of_ascii c in
  ((48 <=? n) && (n <=? 57)) || ((65 <=? n) && (n <=? 90))
  || (n =? 95) || ((97 <=? n) && (n <=? 122))
  || (n =? 170) || (n =? 178) || (n =? 179) || (n =? 181)
  || (n =? 185) || (n =? 186) || ((188 <=? n) && (n <=? 190))
  || ((192 <=? n) && (n <=? 255) && negb (n =? 215) && negb (n =? 247)).

(** [str.lower] on one character: A..Z and À..Þ (except ×) move by 32. *)
Definition lower_char (c : ascii) : ascii :=
  let n := nat_of_ascii c in
  if ((65 <=? n) && (n <=? 90)) || ((192 <=? n) && (n <=? 222) && negb (n =? 215))
  then ascii_of_nat (n + 32) else c.

(** ** String helpers *)

Fixpoint string_map (f : ascii -> ascii) (s : string) : string :=
  match s with
  | EmptyString => EmptyString
  | String c r => String (f c) (string_map f r)
  end.

Definition lower (s : string) : string := string_map lower_char s.

(** [str.strip()]: drop leading and trailing [isspace] characters. *)
Fixpoint lstrip (s : string) : string :=
  match s with
  | EmptyString => EmptyString
  | String c r => if is_space c then lstrip r else s
  end.

Fixpoint rstrip (s : string) : string :=
  match s with
  | EmptyString => EmptyString
  | String c r =>
      let r' := rstrip r in
      if String.eqb r' "" && is_space c then EmptyString else String c r'
  end.

Definition strip (s : string) : string := rstrip (lstrip s).

(** [str.split()] with no argument: maximal runs of non-[isspace]
    characters, empty pieces discarded.  [cur] is the token being read. *)
Definition flush (cur : string) : list string :=
  if String.eqb cur "" then [] else [cur].

Fixpoint split_aux (cur : string) (s : string) : list string :=
  match s with
  | EmptyString => flush cur
  | String c r =>
      if is_space c then (flush cur ++ split_aux "" r)%list
      else split_aux (cur ++ String c "") r
  end.

Definition split (s : string) : list string := split_aux "" s.

(** [" ".join(words)] is [String.concat " " words]. *)
Definition join (words : list string) : string := String.concat " " words.

(** ** [URL_PATTERN = r"www\.|\.(?:com|org|net)"]

    [re.sub(URL_PATTERN, "", s)] scans left to right; at each position it
    tries the alternatives and, on a match, deletes the matched text and
    resumes after it.  Every alternative is a 4-character literal, so a match
    deletes the current character and the 3 after it ([skip]). *)
Definition url_match_here (s : string) : bool :=
  prefix "www." s || prefix ".com" s || prefix ".org" s || prefix ".net" s.

Fixpoint url_sub_aux (skip : nat) (s : string) : string :=
  match s with
  | EmptyString => EmptyString
  | String c r =>
      match skip with
      | S k => url_sub_aux k r
      | O => if url_match_here s then url_sub_aux 3 r
             else String c (url_sub_aux 0 r)
      end
  end.

Definition url_sub (s : string) : string := url_sub_aux 0 s.

(** [PUNCTUATION_PATTERN = r"[^\w\s]"]: [re.sub(PUNCTUATION_PATTERN, " ", s)]
    replaces each character that is neither [\w] nor [\s] by a space. *)
Definition punct_sub (s : string) : string :=
  string_map (fun c => if is_word c || is_space c then c else " "%char) s.

(** ** [DuplicateFinder] *)

(** Membership in [self.removal_words] ([word not in self.removal_words]). *)
Definition mem (w : string) (ws : list string) : bool :=
  existsb (String.eqb w) ws.

(** [__init__]: [{line.strip() for line in removal_words_path.open()}]. *)
Definition load_removal_words (file_lines : list string) : list string :=
  map strip file_lines.

(** The tokens [_clean_name_] filters: the split of the lowered,
    URL-stripped, punctuation-replaced name. *)
Definition tokens (name : string) : list string :=
  split (punct_sub (url_sub (lower name))).

(** [_clean_name_]. *)
Definition clean_name (removal_words : list string) (name : string) : string :=
  join (filter (fun word => negb (mem word removal_words)) (tokens name)).

Record Company := { original_name : string; cleaned_name : string }.

(** [Company(name, self._clean_name_(name))] *)
Definition make_company (removal_words : list string) (name : string) : Company :=
  {| original_name := name; cleaned_name := clean_name removal_words name |}.

(** [_read_companies_]: one [Company] per line whose [strip()] is non-empty. *)
Fixpoint read_companies (removal_words : list string) (lines : list string)
  : list Company :=
  match lines with
  | [] => []
  | line :: rest =>
      let name := strip line in
      if String.eqb name "" then read_companies removal_words rest
      else make_company removal_words name :: read_companies removal_words rest
  end.

(** [company_dict = defaultdict(list)] as an association list in insertion
    order; [company_dict[key].append(company)] appends to the key's list, or
    creates the key at the end with [[company]]. *)
Definition Dict := list (string * list Company).

Fixpoint dict_append (d : Dict) (key : string) (c : Company) : Dict :=
  match d with
  | [] => [(key, [c])]
  | (k, g) :: d' =>
      if String.eqb key k then (k, (g ++ [c])%list) :: d' else (k, g) :: dict_append d' key c
  end.

Definition build_dict (companies : list Company) : Dict :=
  fold_left (fun d c => dict_append d (cleaned_name c) c) companies [].

(** [_find_duplicates_]: the dict's values with more than one member. *)
Definition find_duplicates (companies : list Company) : list (list Company) :=
  filter (fun group => 1 <? length group) (map snd (build_dict companies)).

(** [itertools.combinations(group, 2)]: pairs in index order. *)
Fixpoint combinations2 {A : Type} (l : list A) : list (A * A) :=
  match l with
  | [] => []
  | x :: r => (map (fun y => (x, y)) r ++ combinations2 r)%list
  end.

(** The pairs [_write_output_] iterates over. *)
Definition emit_pairs (groups : list (list Company)) : list (Company * Company) :=
  flat_map combinations2 groups.

(** [f"{company1.original_name}, {company2.original_name}"] *)
Definition render (p : Company * Company) : string :=
  original_name (fst p) ++ ", " ++ original_name (snd p).

Definition output_lines (groups : list (list Company)) : list string :=
  map render (emit_pairs groups).

(** The text [f.writelines] writes: each line followed by a newline. *)
Definition newline : string := String (ascii_of_nat 10) "".

Definition output_text (groups : list (list Company)) : string :=
  fold_right (fun line acc => line ++ newline ++ acc) "" (output_lines groups).

(** [find_duplicates]: read, group, write. *)
Definition pipeline_lines (removal_words : list string) (lines : list string)
  : list string :=
  output_lines (find_duplicates (read_companies removal_words lines)).

Definition pipeline_text (removal_words : list string) (lines : list string)
  : string :=
  output_text (find_duplicates (read_companies removal_words lines)).

(** ** Specification-side definitions

    Characters of a string, and the shapes of tokens and of their
    characters. *)
Abbreviation chars := list_ascii_of_string.

(** A string containing no [isspace] character. *)
Definition no_space (t : string) : Prop :=
  forall c, In c (chars t) -> is_space c = false.

(** What [str.split()] yields: non-empty pieces without whitespace. *)
Definition token_ok (t : string) : Prop := t <> "" /\ no_space t.

(** A word character that [str.lower] leaves unchanged. *)
Definition clean_char (c : ascii) : Prop :=
  is_word c = true /\ lower_char c = c.

(** The filter of [_clean_name_]: [word not in self.removal_words]. *)
Definition keep (removal_words : list string) (word : string) : bool :=
  negb (mem word removal_words).

(** Keys in the order of their first occurrence ([seen] holds the keys met
    so far). *)
Fixpoint first_occ_aux (seen : list string) (l : list string) : list string :=
  match l with
  | [] => []
  | x :: r => if mem x seen then first_occ_aux seen r else x :: first_occ_aux (x :: seen) r
  end.

Definition first_occurrences (l : list string) : list string := first_occ_aux [] l.

(** The records whose canonical key is [k], in input order. *)
Definition members_with_key (cs : list Company) (k : string) : list Company :=
  filter (fun d => String.eqb (cleaned_name d) k) cs.

(** Spec 4.3, read from its words: one group per distinct key, groups in the
    order of first occurrence of their key, members in input order, only
    groups with 2+ members kept. *)
Definition spec_dict (cs : list Company) : Dict :=
  map (fun k => (k, members_with_key cs k)) (first_occurrences (map cleaned_name cs)).

Definition spec_find_duplicates (cs : list Company) : list (list Company) :=
  filter (fun group => 1 <? length group)
    (map (members_with_key cs) (first_occurrences (map cleaned_name cs))).

(** Spec 4.4, read from its words: the index pairs [(i, j)] with [i < j < n]
    in lexicographic order (first index, then second). *)
Definition index_pairs (n : nat) : list (nat * nat) :=
  filter (fun ij => fst ij <? snd ij) (list_prod (seq 0 n) (seq 0 n)).

Definition pair_at {A : Type} (d : A) (g : list A) (ij : nat * nat) : A * A :=
  (nth (fst ij) g d, nth (snd ij) g d).

Definition no_company : Company := {| original_name := ""; cleaned_name := "" |}.

(** A reader of the output file: the text cut at each newline, one line per
    newline terminator (a final unterminated piece is kept if non-empty). *)
Fixpoint read_lines_aux (cur : string) (s : string) : list string :=
  match s with
  | EmptyString => if String.eqb cur "" then [] else [cur]
  | String c r =>
      if Ascii.eqb c (ascii_of_nat 10) then cur :: read_lines_aux "" r
      else read_lines_aux (cur ++ String c "") r
  end.

Definition read_lines (text : string) : list string := read_lines_aux "" text.

(** A string without a newline character. *)
Definition no_newline (t : string) : Prop := ~ In (ascii_of_nat 10) (chars t).

Example clean_acme :
  map (clean_name ["inc"; "llc"; "the"]) ["Acme Inc."; "ACME"; "The Acme LLC"; "Zeta Corp"]
  = ["acme"; "acme"; "acme"; "zeta corp"].
Proof. vm_compute. reflexivity. Qed.

Example url_foo : url_sub "www.foo.com" = "foo".
Proof. vm_compute. reflexivity. Qed.

Example split_ex : split "  a b,c  " = ["a"; "b,c"].
Proof. vm_compute. reflexivity. Qed.

(** ** Character-level facts *)


Lemma chars_app (s t : string) : chars (s ++ t) = (chars s ++ chars t)%list.
Proof. induction s as [|c s IH]; simpl; [reflexivity | now rewrite IH]. Qed.

Lemma append_assoc_str (s t u : string) : (s ++ t) ++ u = s ++ (t ++ u).
Proof. induction s as [|c s IH]; simpl; [reflexivity | now rewrite IH]. Qed.

Lemma append_empty_r (s : string) : s ++ "" = s.
Proof. induction s as [|c s IH]; simpl; [reflexivity | now rewrite IH]. Qed.

Lemma chars_map (f : ascii -> ascii) (s : string) :
  chars (string_map f s) = map f (chars s).
Proof. induction s as [|c s IH]; simpl; [reflexivity | now rewrite IH]. Qed.

Lemma string_map_id (f : ascii -> ascii) (s : string) :
  (forall c, In c (chars s) -> f c = c) -> string_map f s = s.
Proof.
  induction s as [|c s IH]; intros H; simpl; [reflexivity|].
  rewrite (H c) by (left; reflexivity).
  rewrite IH by (intros d Hd; apply H; right; exact Hd).
  reflexivity.
Qed.

(** [str.lower] is idempotent on every code point of the range. *)
Lemma lower_char_idem (c : ascii) : lower_char (lower_char c) = lower_char c.
Proof.
  destruct c as [[] [] [] [] [] [] [] []]; vm_compute; reflexivity.
Qed.

Lemma is_word_not_space (c : ascii) : is_word c = true -> is_space c = false.
Proof.
  destruct c as [[] [] [] [] [] [] [] []]; vm_compute; congruence.
Qed.

Lemma is_word_not_dot (c : ascii) : is_word c = true -> c <> "."%char.
Proof. intros H ->. vm_compute in H. discriminate. Qed.

(** ** The URL pass *)

Lemma prefix_chars (p s : string) :
  prefix p s = true -> forall c, In c (chars p) -> In c (chars s).
Proof.
  revert s; induction p as [|a p IH]; intros s Hp c Hc; [destruct Hc|].
  destruct s as [|b s]; simpl in Hp; [discriminate|].
  destruct (ascii_dec a b) as [<-|]; [|discriminate].
  destruct Hc as [<-|Hc]; [left; reflexivity | right; exact (IH s Hp c Hc)].
Qed.

Lemma url_match_here_dot (s : string) :
  url_match_here s = true -> In "."%char (chars s).
Proof.
  unfold url_match_here; intros H.
  repeat (apply orb_true_iff in H; destruct H as [H|H]);
    apply (prefix_chars _ _ H); simpl; auto 6.
Qed.

Lemma url_sub_aux_incl (k : nat) (s : string) :
  incl (chars (url_sub_aux k s)) (chars s).
Proof.
  revert k; induction s as [|c s IH]; intros k d Hd; simpl in *; [exact Hd|].
  destruct k as [|k].
  - destruct (url_match_here (String c s)).
    + right; exact (IH 3 d Hd).
    + destruct Hd as [<-|Hd]; [left; reflexivity | right; exact (IH 0 d Hd)].
  - right; exact (IH k d Hd).
Qed.

Lemma url_sub_no_dot (s : string) :
  ~ In "."%char (chars s) -> url_sub s = s.
Proof.
  unfold url_sub; induction s as [|c s IH]; intros H; simpl; [reflexivity|].
  destruct (url_match_here (String c s)) eqn:E.
  - exfalso; exact (H (url_match_here_dot _ E)).
  - rewrite IH; [reflexivity|]. intros Hd; apply H; right; exact Hd.
Qed.

(** ** [split] and [join] *)


Lemma split_aux_app_word (cur t r : string) :
  no_space t -> split_aux cur (t ++ r) = split_aux (cur ++ t) r.
Proof.
  revert cur; induction t as [|c t IH]; intros cur Ht; simpl.
  - now rewrite append_empty_r.
  - rewrite (Ht c) by (left; reflexivity).
    rewrite IH by (intros d Hd; apply Ht; right; exact Hd).
    now rewrite append_assoc_str.
Qed.


Lemma split_join (ts : list string) :
  Forall token_ok ts -> split (join ts) = ts.
Proof.
  unfold split, join; induction ts as [|t ts IH]; intros Hts; [reflexivity|].
  inversion Hts as [|? ? [Hne Hsp] Hrest]; subst.
  destruct ts as [|t' ts'].
  - simpl. rewrite <- (append_empty_r t) at 1.
    rewrite split_aux_app_word by exact Hsp. simpl.
    unfold flush. destruct (String.eqb_spec t "") as [E|_]; [contradiction | reflexivity].
  - change (String.concat " " (t :: t' :: ts'))
      with (t ++ String " " (String.concat " " (t' :: ts'))).
    remember (String.concat " " (t' :: ts')) as rest eqn:Er.
    rewrite split_aux_app_word by exact Hsp. simpl.
    rewrite (IH Hrest). unfold flush.
    destruct (String.eqb_spec t "") as [E|_]; [contradiction | reflexivity].
Qed.

Lemma split_aux_tokens (cur s : string) :
  no_space cur ->
  forall t, In t (split_aux cur s) ->
    t <> "" /\ forall c, In c (chars t) -> In c (chars cur ++ chars s)%list /\ is_space c = false.
Proof.
  revert cur; induction s as [|c s IH]; intros cur Hcur t Ht; simpl in Ht.
  - unfold flush in Ht. destruct (String.eqb_spec cur "") as [_|Hne]; [destruct Ht|].
    destruct Ht as [<-|[]]; split; [exact Hne|].
    intros d Hd; split; [rewrite app_nil_r; exact Hd | exact (Hcur d Hd)].
  - destruct (is_space c) eqn:Ec.
    + apply in_app_or in Ht; destruct Ht as [Ht|Ht].
      * unfold flush in Ht. destruct (String.eqb_spec cur "") as [_|Hne]; [destruct Ht|].
        destruct Ht as [<-|[]]; split; [exact Hne|].
        intros d Hd; split; [apply in_or_app; left; exact Hd | exact (Hcur d Hd)].
      * assert (H0 : no_space "") by (intros d []).
        destruct (IH "" H0 t Ht) as [Hne Hc]; split; [exact Hne|].
        intros d Hd; destruct (Hc d Hd) as [Hin Hs]; split; [|exact Hs].
        apply in_or_app; right; right; exact Hin.
    + assert (Hcur' : no_space (cur ++ String c "")).
      { intros d Hd; rewrite chars_app in Hd; apply in_app_or in Hd.
        destruct Hd as [Hd|[<-|[]]]; [exact (Hcur d Hd) | exact Ec]. }
      destruct (IH _ Hcur' t Ht) as [Hne Hc]; split; [exact Hne|].
      intros d Hd; destruct (Hc d Hd) as [Hin Hs]; split; [|exact Hs].
      rewrite chars_app in Hin; simpl in Hin.
      rewrite <- app_assoc in Hin; exact Hin.
Qed.

Lemma split_tokens (s : string) :
  forall t, In t (split s) ->
    token_ok t /\ forall c, In c (chars t) -> In c (chars s).
Proof.
  intros t Ht.
  assert (H0 : no_space "") by (intros d []).
  destruct (split_aux_tokens "" s H0 t Ht) as [Hne Hc].
  split; [split; [exact Hne|] |]; intros d Hd; apply (Hc d Hd).
Qed.

Lemma join_chars (ts : list string) (c : ascii) :
  In c (chars (join ts)) -> c = " "%char \/ exists t, In t ts /\ In c (chars t).
Proof.
  unfold join; induction ts as [|t ts IH]; intros H; [destruct H|].
  destruct ts as [|t' ts'].
  - right; exists t; split; [left; reflexivity | exact H].
  - change (String.concat " " (t :: t' :: ts'))
      with (t ++ String " " (String.concat " " (t' :: ts'))) in H.
    rewrite chars_app in H; apply in_app_or in H; simpl in H.
    destruct H as [H|[H|H]].
    + right; exists t; split; [left; reflexivity | exact H].
    + left; symmetry; exact H.
    + destruct (IH H) as [E|[u [Hu Hc]]]; [left; exact E|].
      right; exists u; split; [right; exact Hu | exact Hc].
Qed.


Lemma tokens_chars (name t : string) :
  In t (tokens name) -> token_ok t /\ forall c, In c (chars t) -> clean_char c.
Proof.
  unfold tokens; intros Ht.
  destruct (split_tokens _ t Ht) as [Hok Hc]; split; [exact Hok|].
  intros c Hct. pose proof (Hc c Hct) as Hin.
  assert (Hsp : is_space c = false) by (apply (proj2 Hok); exact Hct).
  unfold punct_sub in Hin; rewrite chars_map in Hin.
  apply in_map_iff in Hin; destruct Hin as [c0 [Ec0 Hin0]].
  destruct (is_word c0 || is_space c0) eqn:Ew.
  - subst c0. apply url_sub_aux_incl in Hin0.
    unfold lower in Hin0; rewrite chars_map in Hin0.
    apply in_map_iff in Hin0; destruct Hin0 as [c1 [Ec1 _]].
    split.
    + apply orb_true_iff in Ew; destruct Ew as [Ew|Ew]; [exact Ew|congruence].
    + subst c; apply lower_char_idem.
  - subst c; discriminate.
Qed.


Lemma clean_name_keep rw name :
  clean_name rw name = join (filter (keep rw) (tokens name)).
Proof. reflexivity. Qed.

Lemma split_clean_name rw name :
  split (clean_name rw name) = filter (keep rw) (tokens name).
Proof.
  rewrite clean_name_keep; apply split_join.
  apply Forall_forall; intros t Ht; apply filter_In in Ht.
  exact (proj1 (tokens_chars name t (proj1 Ht))).
Qed.

Lemma clean_name_chars rw name c :
  In c (chars (clean_name rw name)) -> c = " "%char \/ clean_char c.
Proof.
  rewrite clean_name_keep; intros H; apply join_chars in H.
  destruct H as [E|[t [Ht Hc]]]; [left; exact E|right].
  apply filter_In in Ht; exact (proj2 (tokens_chars name t (proj1 Ht)) c Hc).
Qed.

Lemma mem_In w ws : mem w ws = true <-> In w ws.
Proof.
  unfold mem; rewrite existsb_exists; split.
  - intros [x [Hx E]]; apply String.eqb_eq in E; subst; exact Hx.
  - intros H; exists w; split; [exact H | apply String.eqb_refl].
Qed.

Lemma tokens_of_clean rw name :
  tokens (clean_name rw name) = filter (keep rw) (tokens name).
Proof.
  unfold tokens.
  assert (Hl : lower (clean_name rw name) = clean_name rw name).
  { apply string_map_id; intros c Hc.
    destruct (clean_name_chars rw name c Hc) as [->|[_ E]]; [reflexivity | exact E]. }
  assert (Hu : url_sub (clean_name rw name) = clean_name rw name).
  { apply url_sub_no_dot; intros Hd.
    destruct (clean_name_chars rw name _ Hd) as [E|[Hw _]]; [discriminate|].
    exact (is_word_not_dot _ Hw eq_refl). }
  assert (Hp : punct_sub (clean_name rw name) = clean_name rw name).
  { apply string_map_id; intros c Hc.
    destruct (clean_name_chars rw name c Hc) as [->|[Hw _]]; [reflexivity|].
    rewrite Hw; reflexivity. }
  rewrite Hl, Hu, Hp. apply split_clean_name.
Qed.

(** ** Grouping: the insertion-ordered dict against the spec's groups *)

Lemma mem_ext x l1 l2 :
  (forall z, In z l1 <-> In z l2) -> mem x l1 = mem x l2.
Proof.
  intros H.
  destruct (mem x l1) eqn:E1, (mem x l2) eqn:E2; try reflexivity.
  - apply mem_In, H, mem_In in E1; congruence.
  - apply mem_In, H, mem_In in E2; congruence.
Qed.

Lemma mem_false x l : mem x l = false <-> ~ In x l.
Proof.
  split; intros H.
  - intros Hin; apply mem_In in Hin; congruence.
  - destruct (mem x l) eqn:E; [apply mem_In in E; contradiction | reflexivity].
Qed.

Lemma first_occ_app seen l x :
  first_occ_aux seen (l ++ [x]) =
  (first_occ_aux seen l ++ (if mem x (seen ++ l) then [] else [x]))%list.
Proof.
  revert seen; induction l as [|y l IH]; intros seen; simpl.
  - now rewrite app_nil_r.
  - destruct (mem y seen) eqn:Ey.
    + rewrite IH, (mem_ext x (seen ++ y :: l) (seen ++ l)); [reflexivity|].
      intros z. apply mem_In in Ey. rewrite !in_app_iff; simpl; intuition congruence.
    + rewrite IH, (mem_ext x (seen ++ y :: l) ((y :: seen) ++ l)); [reflexivity|].
      intros z. simpl; rewrite !in_app_iff; simpl; intuition.
Qed.

Lemma first_occ_In seen l x :
  In x (first_occ_aux seen l) <-> In x l /\ ~ In x seen.
Proof.
  revert seen; induction l as [|y l IH]; intros seen; simpl; [tauto|].
  destruct (mem y seen) eqn:Ey.
  - rewrite IH. apply mem_In in Ey. split; [tauto|].
    intros [[<-|H] Hn]; [contradiction | tauto].
  - simpl. rewrite IH. apply mem_false in Ey. simpl. split.
    + intros [<-|[H Hn]]; [tauto | tauto].
    + intros [[<-|H] Hn]; [left; reflexivity|].
      destruct (String.eqb_spec y x) as [->|Hne]; [left; reflexivity | right; tauto].
Qed.

Lemma first_occ_NoDup seen l : NoDup (first_occ_aux seen l).
Proof.
  revert seen; induction l as [|y l IH]; intros seen; simpl; [constructor|].
  destruct (mem y seen); [apply IH|].
  constructor; [|apply IH].
  rewrite first_occ_In; intros [_ Hn]; apply Hn; left; reflexivity.
Qed.

Lemma dict_append_present (K : list string) (f : string -> list Company) k c :
  NoDup K -> In k K ->
  dict_append (map (fun k' => (k', f k')) K) k c =
  map (fun k' => (k', (f k' ++ if String.eqb k k' then [c] else [])%list)) K.
Proof.
  induction K as [|k0 K IH]; intros Hnd Hin; [destruct Hin|].
  inversion Hnd as [|? ? Hk0 HK]; subst. simpl.
  destruct (String.eqb_spec k k0) as [->|Hne].
  - f_equal. apply map_ext_in; intros k' Hk'.
    destruct (String.eqb_spec k0 k') as [->|_]; [contradiction | now rewrite app_nil_r].
  - rewrite app_nil_r. f_equal. apply IH; [exact HK|].
    destruct Hin as [<-|Hin]; [congruence | exact Hin].
Qed.

Lemma dict_append_absent (K : list string) (f : string -> list Company) k c :
  ~ In k K ->
  dict_append (map (fun k' => (k', f k')) K) k c =
  (map (fun k' => (k', f k')) K ++ [(k, [c])])%list.
Proof.
  induction K as [|k0 K IH]; intros Hn; simpl; [reflexivity|].
  destruct (String.eqb_spec k k0) as [->|_]; [exfalso; apply Hn; left; reflexivity|].
  f_equal. apply IH. intros H; apply Hn; right; exact H.
Qed.

Lemma members_app cs c k :
  members_with_key (cs ++ [c]) k =
  (members_with_key cs k ++ if String.eqb (cleaned_name c) k then [c] else [])%list.
Proof. unfold members_with_key; rewrite filter_app; simpl; now destruct String.eqb. Qed.

Lemma members_absent cs k :
  ~ In k (map cleaned_name cs) -> members_with_key cs k = [].
Proof.
  unfold members_with_key; induction cs as [|d cs IH]; intros Hn; simpl; [reflexivity|].
  destruct (String.eqb_spec (cleaned_name d) k) as [E|_].
  - exfalso; apply Hn; left; exact E.
  - apply IH; intros H; apply Hn; right; exact H.
Qed.

(** The dict built by the loop of [_find_duplicates_] is the spec's. *)
Lemma build_dict_spec (cs : list Company) : build_dict cs = spec_dict cs.
Proof.
  induction cs as [|c cs IH] using rev_ind; [reflexivity|].
  unfold build_dict in *. rewrite fold_left_app, IH. cbn [fold_left].
  unfold spec_dict, first_occurrences. rewrite map_app. cbn [map]. rewrite first_occ_app. cbn [app].
  destruct (mem (cleaned_name c) (map cleaned_name cs)) eqn:Em.
  - rewrite app_nil_r. rewrite dict_append_present.
    + apply map_ext; intros k'. now rewrite members_app.
    + apply first_occ_NoDup.
    + apply first_occ_In; split; [apply mem_In; exact Em | intros []].
  - rewrite dict_append_absent.
    + rewrite map_app. simpl. f_equal.
      * apply map_ext_in; intros k' Hk'. rewrite members_app.
        apply first_occ_In in Hk'. destruct Hk' as [Hk' _].
        destruct (String.eqb_spec (cleaned_name c) k') as [E|_].
        -- apply mem_false in Em. rewrite E in Em. contradiction.
        -- now rewrite app_nil_r.
      * rewrite members_app, members_absent by (apply mem_false; exact Em).
        now rewrite String.eqb_refl.
    + rewrite first_occ_In. intros [H _]. apply mem_false in Em. contradiction.
Qed.

Lemma find_duplicates_refines (cs : list Company) :
  find_duplicates cs = spec_find_duplicates cs.
Proof.
  unfold find_duplicates, spec_find_duplicates.
  rewrite build_dict_spec. unfold spec_dict. now rewrite map_map.
Qed.

(** ** [itertools.combinations(group, 2)] against index pairs *)

Lemma index_pairs_In n i j : In (i, j) (index_pairs n) <-> i < j < n.
Proof.
  unfold index_pairs; rewrite filter_In, in_prod_iff, !in_seq; simpl.
  rewrite Nat.ltb_lt; lia.
Qed.

Lemma NoDup_map_pair {A B : Type} (x : A) (l : list B) :
  NoDup l -> NoDup (map (fun y => (x, y)) l).
Proof.
  induction 1 as [|a l Ha Hl IH]; simpl; constructor; [|exact IH].
  rewrite in_map_iff; intros [b [E Hb]]; injection E as ->; contradiction.
Qed.

Lemma NoDup_list_prod {A B : Type} (l : list A) (l' : list B) :
  NoDup l -> NoDup l' -> NoDup (list_prod l l').
Proof.
  intros Hl Hl'; induction Hl as [|x t Hx Ht IH]; simpl; [constructor|].
  apply NoDup_app; [apply NoDup_map_pair; exact Hl' | exact IH|].
  intros [a b] Hab Hin. apply in_map_iff in Hab; destruct Hab as [y [E _]].
  injection E as <- _. apply in_prod_iff in Hin; destruct Hin as [Hin _]; contradiction.
Qed.

Lemma index_pairs_NoDup n : NoDup (index_pairs n).
Proof. apply NoDup_filter, NoDup_list_prod; apply seq_NoDup. Qed.

Lemma filter_lt_first (b : nat) (L : list nat) :
  filter (fun ij => fst ij <? snd ij) (map (fun y => (S b, y)) (0 :: map S L)) =
  map (fun ij => (S (fst ij), S (snd ij)))
      (filter (fun ij => fst ij <? snd ij) (map (fun y => (b, y)) L)).
Proof.
  simpl. induction L as [|a L IH]; simpl; [reflexivity|].
  replace (S b <? S a) with (b <? a) by reflexivity.
  destruct (b <? a); simpl; rewrite IH; reflexivity.
Qed.

Lemma filter_lt_shift (L1 L2 : list nat) :
  filter (fun ij => fst ij <? snd ij) (list_prod (map S L1) (0 :: map S L2)) =
  map (fun ij => (S (fst ij), S (snd ij)))
      (filter (fun ij => fst ij <? snd ij) (list_prod L1 L2)).
Proof.
  induction L1 as [|b L1 IH]; [reflexivity|].
  change (list_prod (map S (b :: L1)) (0 :: map S L2))
    with (map (fun y => (S b, y)) (0 :: map S L2) ++ list_prod (map S L1) (0 :: map S L2))%list.
  simpl list_prod at 2.
  rewrite !filter_app, map_app, IH, filter_lt_first. reflexivity.
Qed.

Lemma index_pairs_S n :
  index_pairs (S n) =
  (map (fun j => (0, S j)) (seq 0 n) ++
   map (fun ij => (S (fst ij), S (snd ij))) (index_pairs n))%list.
Proof.
  unfold index_pairs.
  replace (seq 0 (S n)) with (0 :: map S (seq 0 n)) by (simpl; now rewrite seq_shift).
  change (list_prod (0 :: map S (seq 0 n)) (0 :: map S (seq 0 n)))
    with (map (fun y => (0, y)) (0 :: map S (seq 0 n))
          ++ list_prod (map S (seq 0 n)) (0 :: map S (seq 0 n)))%list.
  rewrite filter_app, filter_lt_shift. f_equal.
  simpl. rewrite map_map. generalize (seq 0 n) as L; induction L as [|a L IH]; simpl;
    [reflexivity | now rewrite IH].
Qed.

Lemma map_nth_seq_self {A : Type} (d : A) (l : list A) :
  map (fun j => nth j l d) (seq 0 (length l)) = l.
Proof.
  induction l as [|x l IH]; [reflexivity|].
  simpl. rewrite <- seq_shift, map_map. simpl. now rewrite IH.
Qed.

Lemma combinations2_index {A : Type} (d : A) (g : list A) :
  combinations2 g = map (pair_at d g) (index_pairs (length g)).
Proof.
  induction g as [|x g IH]; [reflexivity|].
  simpl length. rewrite index_pairs_S, map_app, !map_map. simpl combinations2.
  f_equal.
  - unfold pair_at; simpl. rewrite <- (map_nth_seq_self d g) at 1.
    now rewrite map_map.
  - rewrite IH. apply map_ext; intros [i j]; reflexivity.
Qed.

Lemma combinations2_length2 {A : Type} (g : list A) :
  2 * length (combinations2 g) = length g * (length g - 1).
Proof.
  induction g as [|x g IH]; [reflexivity|].
  simpl combinations2. rewrite length_app, length_map. simpl length.
  destruct (length g) as [|n]; simpl in *; nia.
Qed.

Lemma combinations2_length {A : Type} (g : list A) :
  length (combinations2 g) = length g * (length g - 1) / 2.
Proof.
  rewrite <- combinations2_length2, Nat.mul_comm, Nat.div_mul; reflexivity || lia.
Qed.

Lemma combinations2_members {A : Type} (g : list A) p :
  In p (combinations2 g) -> In (fst p) g /\ In (snd p) g.
Proof.
  induction g as [|x g IH]; intros H; [destruct H|].
  simpl in H; apply in_app_or in H; destruct H as [H|H].
  - apply in_map_iff in H; destruct H as [y [<- Hy]]; simpl; auto.
  - destruct (IH H); simpl; auto.
Qed.

Lemma combinations2_ordered {A : Type} (pre mid post : list A) x y :
  In (x, y) (combinations2 (pre ++ x :: mid ++ y :: post)).
Proof.
  induction pre as [|z pre IH]; simpl.
  - apply in_or_app; left. apply in_map_iff; exists y; split; [reflexivity|].
    apply in_or_app; right; left; reflexivity.
  - apply in_or_app; right; exact IH.
Qed.

(** ** Further helpers *)

Lemma filter_idem {A : Type} (f : A -> bool) (l : list A) :
  filter f (filter f l) = filter f l.
Proof.
  induction l as [|x l IH]; simpl; [reflexivity|].
  destruct (f x) eqn:E; simpl; [rewrite E, IH | rewrite IH]; reflexivity.
Qed.

Lemma members_length_count cs k :
  length (members_with_key cs k) = count_occ string_dec (map cleaned_name cs) k.
Proof.
  unfold members_with_key; induction cs as [|d cs IH]; simpl; [reflexivity|].
  destruct (String.eqb_spec (cleaned_name d) k), (string_dec (cleaned_name d) k);
    simpl; congruence.
Qed.

Lemma members_key cs k d : In d (members_with_key cs k) -> cleaned_name d = k.
Proof.
  unfold members_with_key; rewrite filter_In; intros [_ E].
  apply String.eqb_eq; exact E.
Qed.

Lemma find_duplicates_groups cs g :
  In g (find_duplicates cs) ->
  exists k, g = members_with_key cs k /\ 1 < length g.
Proof.
  rewrite find_duplicates_refines; unfold spec_find_duplicates.
  rewrite filter_In, in_map_iff; intros [[k [<- _]] Hl].
  exists k; split; [reflexivity | apply Nat.ltb_lt; exact Hl].
Qed.

Lemma shared_key_emitted cs pre mid post c1 c2 :
  cs = (pre ++ c1 :: mid ++ c2 :: post)%list ->
  cleaned_name c1 = cleaned_name c2 ->
  exists g, In g (find_duplicates cs) /\ In (c1, c2) (combinations2 g).
Proof.
  intros Hcs Hk.
  exists (members_with_key cs (cleaned_name c1)).
  assert (Hg : members_with_key cs (cleaned_name c1) =
               (members_with_key pre (cleaned_name c1) ++ c1 ::
                members_with_key mid (cleaned_name c1) ++ c2 ::
                members_with_key post (cleaned_name c1))%list).
  { subst cs; unfold members_with_key.
    rewrite filter_app; simpl; rewrite String.eqb_refl, filter_app; simpl.
    rewrite Hk, String.eqb_refl; reflexivity. }
  split.
  - rewrite find_duplicates_refines; unfold spec_find_duplicates.
    apply filter_In; split.
    + apply in_map, first_occ_In; split; [|intros []].
      subst cs; apply in_map, in_or_app; right; left; reflexivity.
    + rewrite Hg, length_app; simpl. rewrite length_app; simpl.
      apply Nat.ltb_lt; lia.
  - rewrite Hg; apply combinations2_ordered.
Qed.

Lemma read_companies_app rw l1 l2 :
  read_companies rw (l1 ++ l2) = (read_companies rw l1 ++ read_companies rw l2)%list.
Proof.
  induction l1 as [|x l1 IH]; simpl; [reflexivity|].
  destruct (String.eqb (strip x) ""); [exact IH | simpl; now rewrite IH].
Qed.

Lemma read_companies_cons rw n rest :
  strip n <> "" ->
  read_companies rw (n :: rest) = make_company rw (strip n) :: read_companies rw rest.
Proof.
  intros H; simpl. destruct (String.eqb_spec (strip n) "") as [E|_]; [contradiction | reflexivity].
Qed.

(** ** Claims *)

(** C1. Scenario 1: with removal words {"inc", "llc", "the"} the three Acme
    variants clean to "acme", and the pipeline writes exactly the lines
    "Acme Inc., ACME", "Acme Inc., The Acme LLC", "ACME, The Acme LLC", in
    that order; the singleton "Zeta Corp" contributes nothing. *)
Theorem scenario_acme :
  map (clean_name ["inc"; "llc"; "the"]) ["Acme Inc."; "ACME"; "The Acme LLC"]
    = ["acme"; "acme"; "acme"] /\
  pipeline_lines ["inc"; "llc"; "the"] ["Acme Inc."; "ACME"; "The Acme LLC"; "Zeta Corp"]
    = ["Acme Inc., ACME"; "Acme Inc., The Acme LLC"; "ACME, The Acme LLC"] /\
  pipeline_text ["inc"; "llc"; "the"] ["Acme Inc."; "ACME"; "The Acme LLC"; "Zeta Corp"]
    = "Acme Inc., ACME" ++ newline ++ "Acme Inc., The Acme LLC" ++ newline
      ++ "ACME, The Acme LLC" ++ newline.
Proof. vm_compute. repeat split. Qed.

(** C2. Emission lists, for each group [g] of length [n], the pairs
    [(g[i], g[j])] for the index pairs [i < j < n] in lexicographic order;
    each index pair occurs once; there are [n (n - 1) / 2] of them; for
    [[a; b; c]] the pairs are [(a,b), (a,c), (b,c)]. *)
Theorem emit_pairs_index_order (groups : list (list Company)) :
  emit_pairs groups =
    flat_map (fun g => map (pair_at no_company g) (index_pairs (length g))) groups /\
  (forall g : list Company, length (combinations2 g) = length g * (length g - 1) / 2) /\
  (forall n i j, In (i, j) (index_pairs n) <-> i < j < n) /\
  (forall n, NoDup (index_pairs n)) /\
  (forall a b c : Company, combinations2 [a; b; c] = [(a, b); (a, c); (b, c)]).
Proof.
  split; [|split; [|split; [|split]]].
  - unfold emit_pairs; apply flat_map_ext; intros g; apply combinations2_index.
  - intros g; apply combinations2_length.
  - intros n i j; apply index_pairs_In.
  - intros n; apply index_pairs_NoDup.
  - intros a b c; reflexivity.
Qed.

(** C3. [_clean_name_] is idempotent for every fixed removal-word set. *)
Theorem clean_name_idempotent (rw : list string) (x : string) :
  clean_name rw (clean_name rw x) = clean_name rw x.
Proof.
  rewrite (clean_name_keep rw (clean_name rw x)), tokens_of_clean, filter_idem.
  reflexivity.
Qed.

(** C4. Only groups of two or more records are kept: every group returned by
    [_find_duplicates_] has at least 2 members, and when a record's canonical
    key occurs on exactly one record, no returned group holds that key and
    no emitted pair contains the record. *)
Theorem singleton_key_dropped (cs : list Company) (c : Company) :
  In c cs ->
  count_occ string_dec (map cleaned_name cs) (cleaned_name c) = 1 ->
  (forall g, In g (find_duplicates cs) ->
     2 <= length g /\ forall d, In d g -> cleaned_name d <> cleaned_name c) /\
  (forall p, In p (emit_pairs (find_duplicates cs)) -> fst p <> c /\ snd p <> c).
Proof.
  intros _ Hcount.
  assert (Hg : forall g, In g (find_duplicates cs) ->
            2 <= length g /\ forall d, In d g -> cleaned_name d <> cleaned_name c).
  { intros g Hin. destruct (find_duplicates_groups cs g Hin) as [k [-> Hl]].
    split; [lia|]. intros d Hd Ek.
    apply members_key in Hd. subst k.
    rewrite Ek, members_length_count, Hcount in Hl. lia. }
  split; [exact Hg|].
  intros p Hp. unfold emit_pairs in Hp; apply in_flat_map in Hp.
  destruct Hp as [g [Hin Hp]]. apply combinations2_members in Hp.
  destruct (Hg g Hin) as [_ Hk].
  split; intros E; subst c; [apply (Hk _ (proj1 Hp)) | apply (Hk _ (proj2 Hp))]; reflexivity.
Qed.

Lemma singleton_key_dropped_witness :
  let cs := read_companies ["inc"; "llc"; "the"]
              ["Acme Inc."; "ACME"; "The Acme LLC"; "Zeta Corp"] in
  let zeta := make_company ["inc"; "llc"; "the"] "Zeta Corp" in
  In zeta cs /\
  count_occ string_dec (map cleaned_name cs) (cleaned_name zeta) = 1 /\
  (forall p, In p (emit_pairs (find_duplicates cs)) -> fst p <> zeta /\ snd p <> zeta).
Proof.
  intros cs zeta.
  assert (Hin : In zeta cs) by (vm_compute; auto 6).
  assert (Hc : count_occ string_dec (map cleaned_name cs) (cleaned_name zeta) = 1)
    by (vm_compute; reflexivity).
  split; [exact Hin|]; split; [exact Hc|].
  exact (proj2 (singleton_key_dropped cs zeta Hin Hc)).
Defined.

(** C5. Removal is by whole-token equality: a token of the name is kept
    exactly when it equals no removal word, so a removal word that is only a
    proper substring of the token (["inc"] in ["incorporated"]) strips
    nothing and the token survives whole. *)
Theorem removal_whole_token (rw : list string) (name t : string) :
  In t (tokens name) ->
  (In t (split (clean_name rw name)) <-> ~ In t rw).
Proof.
  intros Ht. rewrite split_clean_name, filter_In. unfold keep.
  split.
  - intros [_ Hk] Hin. apply mem_In in Hin. rewrite Hin in Hk. discriminate.
  - intros Hn; split; [exact Ht|]. apply negb_true_iff, mem_false; exact Hn.
Qed.

Lemma removal_whole_token_witness :
  In "incorporated" (tokens "Incorporated") /\
  In "incorporated" (split (clean_name ["inc"] "Incorporated")).
Proof.
  assert (Ht : In "incorporated" (tokens "Incorporated")) by (vm_compute; left; reflexivity).
  split; [exact Ht|].
  apply (proj2 (removal_whole_token ["inc"] "Incorporated" "incorporated" Ht)).
  intros [E|[]]; discriminate.
Defined.

(** C6. The empty string is a canonical key like any other: two input lines
    whose stripped names both clean to [""] land in one group, and the pair
    of their names is written, first-seen name first. *)
Theorem empty_key_grouped (rw pre mid post : list string) (n1 n2 : string) :
  strip n1 <> "" -> strip n2 <> "" ->
  clean_name rw (strip n1) = "" -> clean_name rw (strip n2) = "" ->
  (exists g, In g (find_duplicates (read_companies rw (pre ++ n1 :: mid ++ n2 :: post)))
     /\ In (make_company rw (strip n1)) g /\ In (make_company rw (strip n2)) g) /\
  In (strip n1 ++ ", " ++ strip n2) (pipeline_lines rw (pre ++ n1 :: mid ++ n2 :: post)).
Proof.
  intros H1 H2 E1 E2.
  assert (Hcs : read_companies rw (pre ++ n1 :: mid ++ n2 :: post) =
                (read_companies rw pre ++ make_company rw (strip n1) ::
                 read_companies rw mid ++ make_company rw (strip n2) ::
                 read_companies rw post)%list).
  { rewrite read_companies_app, read_companies_cons by exact H1.
    rewrite read_companies_app, read_companies_cons by exact H2. reflexivity. }
  assert (Hk : cleaned_name (make_company rw (strip n1)) =
               cleaned_name (make_company rw (strip n2))) by (simpl; congruence).
  destruct (shared_key_emitted _ _ _ _ _ _ Hcs Hk) as [g [Hg Hp]].
  split.
  - exists g; split; [exact Hg|]. exact (combinations2_members g _ Hp).
  - unfold pipeline_lines, output_lines.
    change (strip n1 ++ ", " ++ strip n2)
      with (render (make_company rw (strip n1), make_company rw (strip n2))).
    apply in_map. unfold emit_pairs; apply in_flat_map. exists g; split; assumption.
Qed.

Lemma empty_key_grouped_witness :
  strip "Inc." <> "" /\ strip "..." <> "" /\
  clean_name ["inc"] "Inc." = "" /\ clean_name ["inc"] "..." = "" /\
  In "Inc., ..." (pipeline_lines ["inc"] ["Inc."; "Acme"; "..."]).
Proof.
  assert (H1 : strip "Inc." <> "") by (vm_compute; discriminate).
  assert (H2 : strip "..." <> "") by (vm_compute; discriminate).
  assert (E1 : clean_name ["inc"] (strip "Inc.") = "") by (vm_compute; reflexivity).
  assert (E2 : clean_name ["inc"] (strip "...") = "") by (vm_compute; reflexivity).
  split; [exact H1|]; split; [exact H2|].
  split; [vm_compute; reflexivity|]; split; [vm_compute; reflexivity|].
  exact (proj2 (empty_key_grouped ["inc"] [] ["Acme"] [] "Inc." "..." H1 H2 E1 E2)).
Defined.

(** C7. [_find_duplicates_] returns, for the distinct canonical keys in the
    order of their first occurrence in the input, the records with that key
    in input order, keeping the groups of 2+ members. *)
Theorem find_duplicates_order (cs : list Company) :
  find_duplicates cs =
  filter (fun group => 1 <? length group)
    (map (fun k => filter (fun d => String.eqb (cleaned_name d) k) cs)
         (first_occurrences (map cleaned_name cs))).
Proof. exact (find_duplicates_refines cs). Qed.

(** C8. Scenario 2: with no removal words, "www.foo.com" and "Foo" both clean
    to "foo" (the URL pieces are deleted, not turned into spaces), and the
    pipeline writes exactly the line "www.foo.com, Foo". *)
Theorem scenario_www :
  url_sub (lower "www.foo.com") = "foo" /\
  clean_name [] "www.foo.com" = "foo" /\ clean_name [] "Foo" = "foo" /\
  pipeline_lines [] ["www.foo.com"; "Foo"] = ["www.foo.com, Foo"] /\
  pipeline_text [] ["www.foo.com"; "Foo"] = "www.foo.com, Foo" ++ newline.
Proof. vm_compute. repeat split. Qed.

(** C9. [_clean_name_] is total: for every input it returns a string (the
    embedding has no failure outcome), made only of spaces and lowercase
    word characters. *)
Theorem clean_name_total (rw : list string) (s : string) :
  exists r, clean_name rw s = r /\ Forall (fun c => c = " "%char \/ clean_char c) (chars r).
Proof.
  exists (clean_name rw s); split; [reflexivity|].
  apply Forall_forall; intros c Hc; exact (clean_name_chars rw s c Hc).
Qed.

(** C10. Removal words that are empty or contain whitespace never match a
    token: two removal-word sets that agree on every non-empty,
    whitespace-free word give the same cleaned name. *)
Theorem degenerate_removal_words (rw1 rw2 : list string) (s : string) :
  (forall w, w <> "" -> no_space w -> (In w rw1 <-> In w rw2)) ->
  clean_name rw1 s = clean_name rw2 s.
Proof.
  intros H. rewrite !clean_name_keep. f_equal.
  apply filter_ext_in; intros t Ht.
  destruct (proj1 (tokens_chars s t Ht)) as [Hne Hns].
  unfold keep; f_equal.
  destruct (mem t rw1) eqn:E1, (mem t rw2) eqn:E2; try reflexivity.
  - apply mem_In, (H t Hne Hns), mem_In in E1; congruence.
  - apply mem_In, (H t Hne Hns), mem_In in E2; congruence.
Qed.

Lemma degenerate_removal_words_witness :
  clean_name ["inc"; ""; "the company"] "The Company, Inc." = clean_name ["inc"] "The Company, Inc.".
Proof.
  apply degenerate_removal_words.
  intros w Hne Hns; simpl; split.
  - intros [<-|[<-|[<-|[]]]]; [left; reflexivity | contradiction |].
    exfalso. specialize (Hns " "%char). simpl in Hns.
    assert (Hsp : is_space " "%char = false) by (apply Hns; auto 6).
    discriminate.
  - intros [<-|[]]; left; reflexivity.
Defined.

(** ** Further properties of the code *)

Lemma rstrip_idem (s : string) : rstrip (rstrip s) = rstrip s.
Proof.
  induction s as [|c r IH]; simpl; [reflexivity|].
  destruct (String.eqb (rstrip r) "" && is_space c) eqn:E; [reflexivity|].
  simpl. rewrite IH, E. reflexivity.
Qed.

Lemma lstrip_rstrip_lstrip (s : string) :
  lstrip (rstrip (lstrip s)) = rstrip (lstrip s).
Proof.
  induction s as [|c r IH]; simpl; [reflexivity|].
  destruct (is_space c) eqn:Ec; [exact IH|].
  simpl. rewrite Ec, andb_false_r. simpl. rewrite Ec. reflexivity.
Qed.

Lemma strip_idem (s : string) : strip (strip s) = strip s.
Proof. unfold strip. rewrite lstrip_rstrip_lstrip. apply rstrip_idem. Qed.

Lemma read_companies_map_strip rw lines :
  read_companies rw (map strip lines) = read_companies rw lines.
Proof.
  induction lines as [|l lines IH]; simpl; [reflexivity|].
  rewrite strip_idem, IH. reflexivity.
Qed.

Lemma dict_append_perm (d : Dict) k c :
  Permutation (flat_map snd (dict_append d k c)) (flat_map snd d ++ [c])%list.
Proof.
  induction d as [|[k' g] d IH]; simpl; [reflexivity|].
  destruct (String.eqb k k'); simpl.
  - rewrite <- !app_assoc. apply Permutation_app_head, Permutation_app_comm.
  - rewrite <- app_assoc. apply Permutation_app_head, IH.
Qed.

Lemma members_in_find_duplicates cs k :
  In k (map cleaned_name cs) -> 1 < length (members_with_key cs k) ->
  In (members_with_key cs k) (find_duplicates cs).
Proof.
  intros Hk Hl. rewrite find_duplicates_refines; unfold spec_find_duplicates.
  apply filter_In; split; [|apply Nat.ltb_lt; exact Hl].
  apply in_map, first_occ_In; split; [exact Hk | intros []].
Qed.

(** Two removal-word sets that agree on the tokens of a name clean it alike. *)
Lemma clean_name_agree rw1 rw2 s :
  (forall t, In t (tokens s) -> (In t rw1 <-> In t rw2)) ->
  clean_name rw1 s = clean_name rw2 s.
Proof.
  intros H. rewrite !clean_name_keep. f_equal.
  apply filter_ext_in; intros t Ht. unfold keep; f_equal.
  destruct (mem t rw1) eqn:E1, (mem t rw2) eqn:E2; try reflexivity.
  - apply mem_In, (H t Ht), mem_In in E1; congruence.
  - apply mem_In, (H t Ht), mem_In in E2; congruence.
Qed.

Lemma lower_idem (s : string) : lower (lower s) = lower s.
Proof.
  apply string_map_id; intros c Hc. unfold lower in Hc; rewrite chars_map in Hc.
  apply in_map_iff in Hc; destruct Hc as [c0 [<- _]]. apply lower_char_idem.
Qed.

(** X1. Every record built by [_read_companies_] has a non-empty original
    name with no surrounding whitespace, and its cleaned name is
    [_clean_name_] of that original name. *)
Theorem read_companies_records (rw lines : list string) :
  Forall (fun c => original_name c <> "" /\ strip (original_name c) = original_name c
                   /\ cleaned_name c = clean_name rw (original_name c))
         (read_companies rw lines).
Proof.
  induction lines as [|l lines IH]; simpl; [constructor|].
  destruct (String.eqb_spec (strip l) "") as [_|Hne]; [exact IH|].
  constructor; [|exact IH]. simpl. split; [exact Hne|]. split; [apply strip_idem | reflexivity].
Qed.

(** X2. A line that is empty or whitespace only contributes nothing: removing
    it from the input leaves the written output unchanged. *)
Theorem blank_line_ignored (rw pre post : list string) (l : string) :
  strip l = "" ->
  pipeline_text rw (pre ++ l :: post) = pipeline_text rw (pre ++ post).
Proof.
  intros H. unfold pipeline_text. rewrite !read_companies_app. simpl.
  rewrite H. reflexivity.
Qed.

Lemma blank_line_ignored_witness :
  strip "   " = "" /\
  pipeline_text ["inc"] (["Acme Inc"] ++ "   " :: ["ACME"]) =
  pipeline_text ["inc"] (["Acme Inc"] ++ ["ACME"]).
Proof.
  assert (H : strip "   " = "") by (vm_compute; reflexivity).
  split; [exact H | exact (blank_line_ignored ["inc"] ["Acme Inc"] ["ACME"] "   " H)].
Defined.

(** X3. Surrounding whitespace on input lines does not matter: stripping
    every line first gives the same output. *)
Theorem pipeline_strip_invariant (rw lines : list string) :
  pipeline_text rw (map strip lines) = pipeline_text rw lines.
Proof. unfold pipeline_text. now rewrite read_companies_map_strip. Qed.

(** X4. The dict built by [_find_duplicates_] partitions its input: its
    groups together hold exactly the input records (as a permutation), its
    keys are distinct, and each group is non-empty and holds only records
    with the group's key. *)
Theorem build_dict_partition (cs : list Company) :
  Permutation (flat_map snd (build_dict cs)) cs /\
  NoDup (map fst (build_dict cs)) /\
  Forall (fun kg => snd kg <> [] /\ Forall (fun d => cleaned_name d = fst kg) (snd kg))
         (build_dict cs).
Proof.
  split; [|split].
  - induction cs as [|c cs IH] using rev_ind; [reflexivity|].
    unfold build_dict in *. rewrite fold_left_app. cbn [fold_left].
    rewrite dict_append_perm. apply Permutation_app_tail, IH.
  - rewrite build_dict_spec. unfold spec_dict. rewrite map_map. simpl.
    rewrite map_id. apply first_occ_NoDup.
  - rewrite build_dict_spec. unfold spec_dict. apply Forall_forall.
    intros [k g] Hkg. apply in_map_iff in Hkg. destruct Hkg as [k' [E Hk']].
    injection E as <- <-. simpl. split.
    + apply first_occ_In in Hk'. destruct Hk' as [Hk' _].
      apply in_map_iff in Hk'. destruct Hk' as [d [Ed Hd]].
      intros Hnil. assert (Hm : In d (members_with_key cs k')).
      { unfold members_with_key; apply filter_In; split; [exact Hd|].
        apply String.eqb_eq; exact Ed. }
      rewrite Hnil in Hm; destruct Hm.
    + apply Forall_forall; intros d Hd; exact (members_key _ _ _ Hd).
Qed.

(** X5. A record appears in the duplicate groups exactly when it is an input
    record whose canonical key occurs on at least two input records. *)
Theorem in_duplicates_iff (cs : list Company) (c : Company) :
  In c (concat (find_duplicates cs)) <->
  In c cs /\ 2 <= count_occ string_dec (map cleaned_name cs) (cleaned_name c).
Proof.
  rewrite in_concat. split.
  - intros [g [Hg Hc]]. destruct (find_duplicates_groups cs g Hg) as [k [-> Hl]].
    pose proof (members_key _ _ _ Hc) as Ek.
    unfold members_with_key in Hc; apply filter_In in Hc. split; [exact (proj1 Hc)|].
    rewrite <- members_length_count, Ek. lia.
  - intros [Hin Hcount]. exists (members_with_key cs (cleaned_name c)). split.
    + apply members_in_find_duplicates; [apply in_map; exact Hin|].
      rewrite members_length_count; lia.
    + unfold members_with_key; apply filter_In; split; [exact Hin | apply String.eqb_refl].
Qed.

Lemma in_duplicates_iff_witness :
  let cs := read_companies ["inc"; "llc"; "the"]
              ["Acme Inc."; "ACME"; "The Acme LLC"; "Zeta Corp"] in
  In (make_company ["inc"; "llc"; "the"] "ACME") (concat (find_duplicates cs)).
Proof.
  intros cs. apply (proj2 (in_duplicates_iff cs _)).
  split; [vm_compute; auto | vm_compute; auto].
Defined.

(** X6. Every emitted pair joins two input records with the same canonical
    key. *)
Theorem emitted_pairs_same_key (cs : list Company) :
  Forall (fun p => cleaned_name (fst p) = cleaned_name (snd p) /\ In (fst p) cs /\ In (snd p) cs)
         (emit_pairs (find_duplicates cs)).
Proof.
  apply Forall_forall; intros p Hp. unfold emit_pairs in Hp; apply in_flat_map in Hp.
  destruct Hp as [g [Hg Hp]]. destruct (find_duplicates_groups cs g Hg) as [k [-> _]].
  destruct (combinations2_members _ _ Hp) as [H1 H2].
  rewrite (members_key _ _ _ H1), (members_key _ _ _ H2). split; [reflexivity|].
  unfold members_with_key in H1, H2; apply filter_In in H1, H2. tauto.
Qed.

(** X7. Any two non-blank input lines whose stripped names have the same
    cleaned name are written as a pair, the earlier line's name first. *)
Theorem same_key_lines_paired (rw pre mid post : list string) (n1 n2 : string) :
  strip n1 <> "" -> strip n2 <> "" ->
  clean_name rw (strip n1) = clean_name rw (strip n2) ->
  In (strip n1 ++ ", " ++ strip n2) (pipeline_lines rw (pre ++ n1 :: mid ++ n2 :: post)).
Proof.
  intros H1 H2 E.
  assert (Hcs : read_companies rw (pre ++ n1 :: mid ++ n2 :: post) =
                (read_companies rw pre ++ make_company rw (strip n1) ::
                 read_companies rw mid ++ make_company rw (strip n2) ::
                 read_companies rw post)%list).
  { rewrite read_companies_app, read_companies_cons by exact H1.
    rewrite read_companies_app, read_companies_cons by exact H2. reflexivity. }
  destruct (shared_key_emitted _ _ _ _ _ _ Hcs E) as [g [Hg Hp]].
  unfold pipeline_lines, output_lines.
  change (strip n1 ++ ", " ++ strip n2)
    with (render (make_company rw (strip n1), make_company rw (strip n2))).
  apply in_map. unfold emit_pairs; apply in_flat_map. exists g; split; assumption.
Qed.

Lemma same_key_lines_paired_witness :
  In "Acme, ACME Inc" (pipeline_lines ["inc"] [" Acme "; "Zeta"; "ACME Inc"]).
Proof.
  apply (same_key_lines_paired ["inc"] [] ["Zeta"] [] " Acme " "ACME Inc");
    vm_compute; [discriminate | discriminate | reflexivity].
Defined.

(** X8. The number of duplicate groups that [_write_output_] reports is the
    number of distinct canonical keys occurring on at least two records. *)
Theorem duplicate_group_count (cs : list Company) :
  length (find_duplicates cs) =
  length (filter (fun k => 1 <? count_occ string_dec (map cleaned_name cs) k)
                 (first_occurrences (map cleaned_name cs))).
Proof.
  rewrite find_duplicates_refines; unfold spec_find_duplicates.
  rewrite filter_map_swap, length_map. f_equal.
  apply filter_ext; intros k. now rewrite members_length_count.
Qed.

(** X9. The number of lines written is the sum over the groups of
    [n (n - 1) / 2], [n] the group's size. *)
Theorem output_line_count (groups : list (list Company)) :
  length (output_lines groups) =
  list_sum (map (fun g => length g * (length g - 1) / 2) groups).
Proof.
  unfold output_lines, emit_pairs. rewrite length_map.
  induction groups as [|g gs IH]; simpl; [reflexivity|].
  rewrite length_app, IH, combinations2_length. reflexivity.
Qed.

(** X10. [_clean_name_] ignores letter case: a name and its lowercase form
    have the same cleaned name. *)
Theorem clean_name_case_insensitive (rw : list string) (s : string) :
  clean_name rw (lower s) = clean_name rw s.
Proof. unfold clean_name, tokens. now rewrite lower_idem. Qed.

(** X11. A cleaned name is in canonical whitespace form: splitting it on
    whitespace and joining with single spaces gives it back, so it has no
    leading, trailing or repeated spaces. *)
Theorem clean_name_canonical_spacing (rw : list string) (s : string) :
  join (split (clean_name rw s)) = clean_name rw s.
Proof. rewrite split_clean_name. symmetry. apply clean_name_keep. Qed.

(** X12. Only removal words made of lowercase word characters can ever match:
    entries that are empty or contain any other character (uppercase letters,
    punctuation, whitespace, such as "Inc" or "co.") have no effect. *)
Theorem inert_removal_words (rw1 rw2 : list string) (s : string) :
  (forall w, w <> "" -> Forall clean_char (chars w) -> (In w rw1 <-> In w rw2)) ->
  clean_name rw1 s = clean_name rw2 s.
Proof.
  intros H. apply clean_name_agree; intros t Ht.
  destruct (tokens_chars s t Ht) as [[Hne _] Hc].
  apply H; [exact Hne | apply Forall_forall; exact Hc].
Qed.

Lemma inert_removal_words_witness :
  clean_name ["Inc"; "co."; "acme"] "Acme Co. Inc" = clean_name ["acme"] "Acme Co. Inc".
Proof.
  apply inert_removal_words. intros w Hne Hw; simpl; split.
  - intros [<-|[<-|[<-|[]]]]; [| |left; reflexivity]; exfalso;
      inversion Hw as [|? ? [Hword Hlow] _]; vm_compute in Hword, Hlow;
      [discriminate | ].
    inversion Hw as [|? ? _ Hw2]; inversion Hw2 as [|? ? _ Hw3];
      inversion Hw3 as [|? ? [Hdot _] _]; vm_compute in Hdot; discriminate.
  - intros [<-|[]]; right; right; left; reflexivity.
Defined.

(** X13. Blank lines of the removal-words file (loaded by [__init__] as
    empty entries after [strip()]) have no effect on cleaning. *)
Theorem blank_removal_line_inert (pre post : list string) (l s : string) :
  strip l = "" ->
  clean_name (load_removal_words (pre ++ l :: post)) s =
  clean_name (load_removal_words (pre ++ post)) s.
Proof.
  intros Hl. apply clean_name_agree; intros t Ht.
  destruct (tokens_chars s t Ht) as [[Hne _] _].
  unfold load_removal_words; rewrite !map_app, !in_app_iff. simpl. rewrite Hl.
  split; [intros [H|[H|H]] | intros [H|H]]; auto; congruence.
Qed.

Lemma blank_removal_line_inert_witness :
  clean_name (load_removal_words (["inc"] ++ "  " :: ["llc"])) "Acme Inc LLC" =
  clean_name (load_removal_words (["inc"] ++ ["llc"])) "Acme Inc LLC".
Proof. apply blank_removal_line_inert; vm_compute; reflexivity. Defined.

Lemma read_lines_aux_app cur t r :
  no_newline t -> read_lines_aux cur (t ++ r) = read_lines_aux (cur ++ t) r.
Proof.
  revert cur; induction t as [|c t IH]; intros cur Ht; simpl.
  - now rewrite append_empty_r.
  - destruct (Ascii.eqb_spec c (ascii_of_nat 10)) as [E|_].
    + exfalso; apply Ht; left; exact E.
    + rewrite IH by (intros H; apply Ht; right; exact H).
      now rewrite append_assoc_str.
Qed.

Lemma rstrip_chars s : incl (chars (rstrip s)) (chars s).
Proof.
  induction s as [|c r IH]; simpl; intros d Hd; [exact Hd|].
  destruct (String.eqb (rstrip r) "" && is_space c); [destruct Hd|].
  destruct Hd as [<-|Hd]; [left; reflexivity | right; exact (IH d Hd)].
Qed.

Lemma lstrip_chars s : incl (chars (lstrip s)) (chars s).
Proof.
  induction s as [|c r IH]; simpl; intros d Hd; [exact Hd|].
  destruct (is_space c); [right; exact (IH d Hd) | exact Hd].
Qed.

Lemma read_companies_no_newline rw lines :
  Forall no_newline lines -> Forall (fun c => no_newline (original_name c)) (read_companies rw lines).
Proof.
  induction 1 as [|l lines Hl _ IH]; simpl; [constructor|].
  destruct (String.eqb (strip l) ""); [exact IH|]. constructor; [|exact IH].
  simpl. intros H; apply Hl. unfold strip in H.
  apply lstrip_chars, rstrip_chars; exact H.
Qed.

Lemma emitted_pair_members cs p :
  In p (emit_pairs (find_duplicates cs)) -> In (fst p) cs /\ In (snd p) cs.
Proof.
  intros Hp. unfold emit_pairs in Hp; apply in_flat_map in Hp.
  destruct Hp as [g [Hg Hp]]. destruct (find_duplicates_groups cs g Hg) as [k [-> _]].
  destruct (combinations2_members _ _ Hp) as [H1 H2].
  unfold members_with_key in H1, H2; apply filter_In in H1, H2. tauto.
Qed.

(** X14. The written file reads back as the emitted lines: when no input line
    contains a newline, cutting the output text at its newlines gives exactly
    the "name1, name2" lines, in order. *)
Theorem output_text_read_back (rw lines : list string) :
  Forall no_newline lines ->
  read_lines (pipeline_text rw lines) = pipeline_lines rw lines.
Proof.
  intros Hl. pose proof (read_companies_no_newline rw lines Hl) as Hc.
  unfold pipeline_text, pipeline_lines, output_text, read_lines.
  assert (Hout : Forall no_newline
                   (output_lines (find_duplicates (read_companies rw lines)))).
  { apply Forall_forall; intros x Hx. unfold output_lines in Hx.
    apply in_map_iff in Hx; destruct Hx as [p [<- Hp]].
    destruct (emitted_pair_members _ p Hp) as [H1 H2].
    unfold render; intros H. rewrite !chars_app in H. simpl in H.
    apply in_app_or in H; destruct H as [H|[H|[H|H]]].
    - exact (proj1 (Forall_forall _ _) Hc _ H1 H).
    - discriminate.
    - discriminate.
    - exact (proj1 (Forall_forall _ _) Hc _ H2 H). }
  induction Hout as [|x xs Hx _ IH]; [reflexivity|]. cbn [fold_right].
  rewrite read_lines_aux_app by exact Hx.
  assert (Hn : forall cur r, read_lines_aux cur (newline ++ r) = cur :: read_lines_aux "" r)
    by reflexivity.
  rewrite Hn, IH. reflexivity.
Qed.

Lemma output_text_read_back_witness :
  Forall no_newline ["Acme Inc."; "ACME"; "Zeta"] /\
  read_lines (pipeline_text ["inc"] ["Acme Inc."; "ACME"; "Zeta"]) =
  pipeline_lines ["inc"] ["Acme Inc."; "ACME"; "Zeta"].
Proof.
  assert (H : Forall no_newline ["Acme Inc."; "ACME"; "Zeta"]).
  { repeat constructor; unfold no_newline; simpl; intuition discriminate. }
  split; [exact H | exact (output_text_read_back _ _ H)].
Defined.
